(** * memstore: an in-memory, expiring captcha answer store

    A shallow embedding of [memstore/store.go].  The store is a Go map from
    captcha id to [*item], guarded by a [sync.RWMutex]; every entry carries
    the [UnixNano] instant after which it is stale.  The embedding keeps the
    three effects of the source explicit:

    - the wall clock ([time.Now]) is an oracle indexed by the number of
      readings taken so far, so that "how often is the clock sampled" is a
      statement about the model and not a modelling choice;
    - the mutex is a piece of state, and an operation that would wait for it
      forever (no other goroutine runs in a sequential execution) [Blocks];
    - lock operations, clock readings, lookups and map writes are recorded
      in a journal, in the order in which they happen; the trace of a world
      is what the journal shows of lock operations and map writes. *)

From stdpp Require Import gmap strings list fin_maps.
From Stdlib Require Import ZArith Lia.

Local Open Scope Z_scope.

(** ** Go's [int64] and the parts of package [time] the store uses *)

Definition int64_min : Z := - 2 ^ 63.
Definition int64_max : Z := 2 ^ 63 - 1.

(** Two's-complement truncation of an integer to 64 bits. *)
Definition wrap64 (z : Z) : Z := (z + 2 ^ 63) mod 2 ^ 64 - 2 ^ 63.

Definition in_int64 (z : Z) : Prop := int64_min <= z <= int64_max.

Module time.

(** A [time.Time] is an instant; it is kept as the number of nanoseconds
    since the Unix epoch.  A [time.Duration] is an [int64] nanosecond
    count. *)
Definition Time : Type := Z.
Definition Duration : Type := Z.

Definition Nanosecond : Duration := 1.
Definition Millisecond : Duration := 1000000.
Definition Second : Duration := 1000000000.
Definition Minute : Duration := 60 * Second.

(** [t.Add(d)] *)
Definition Add (t : Time) (d : Duration) : Time := t + d.

(** [t.UnixNano()]: the instant as an [int64]; an instant that does not
    fit wraps around. *)
Definition UnixNano (t : Time) : Z := wrap64 t.

End time.

(** ** Errors of package [captchas] returned by the store

    [nil] is [None]. *)
Inductive error : Set :=
| ErrIncorrectCaptcha   (* no entry for the id: the spec's NotFound *)
| ErrExpiredCaptcha.    (* the entry is past its expiration: Expired *)

#[global] Instance error_eq_dec : EqDecision error.
Proof. solve_decision. Defined.

(** ** Data *)

Record item : Type := Item {
  expiration : Z;      (* int64, UnixNano *)
  answer : string
}.

#[global] Instance item_eq_dec : EqDecision item.
Proof. solve_decision. Defined.

(** [sync.RWMutex]: held by one writer or by any number of readers, with
    the [Lock] calls that are waiting for it.  A waiting writer keeps new
    readers out. *)
Record RWMutex : Type := Mutex {
  writer : bool;
  readers : nat;
  waiting : nat
}.

Definition unlocked : RWMutex := Mutex false 0 0.

Record store : Type := Store {
  mu : RWMutex;
  s_expiration : time.Duration;
  gcInterval : time.Duration;
  items : gmap string item
}.

Definition set_mu (m : RWMutex) (s : store) : store :=
  Store m (s_expiration s) (gcInterval s) (items s).
Definition set_expiration (d : time.Duration) (s : store) : store :=
  Store (mu s) d (gcInterval s) (items s).
Definition set_gcInterval (d : time.Duration) (s : store) : store :=
  Store (mu s) (s_expiration s) d (items s).
Definition set_items (m : gmap string item) (s : store) : store :=
  Store (mu s) (s_expiration s) (gcInterval s) m.

(** ** Construction *)

Definition Option : Type := store → store.

Definition Expiration (expiration : time.Duration) : Option :=
  fun s => set_expiration expiration s.

Definition GCInterval (interval : time.Duration) : Option :=
  fun s => set_gcInterval interval s.

(** [New]: the defaults, then the options in order.  This is the store
    [New] returns; the goroutine it starts with [go s.gc()] on the way is
    [New_gc] below, and its passes appear as [CallSweep] in the call
    sequences. *)
Definition New (opts : list Option) : store :=
  foldl (fun s f => f s)
        (Store unlocked (10 * time.Minute) time.Minute ∅)
        opts.

(** ** Effects *)

Inductive event : Type :=
| EvLock | EvUnlock | EvRLock | EvRUnlock
| EvStore (id : string)
| EvDelete (id : string).

#[global] Instance event_eq_dec : EqDecision event.
Proof. solve_decision. Defined.

(** What a goroutine does, step by step: an [event], a lookup of a key in
    the map, or a reading of the clock. *)
Inductive step : Type :=
| Act (e : event)
| Read (id : string)
| Clock.

#[global] Instance step_eq_dec : EqDecision step.
Proof. solve_decision. Defined.

Record world : Type := World {
  heap : store;           (* the one store behind the *store pointer *)
  ticks : nat;            (* clock readings taken so far *)
  journal : list step     (* everything done so far, oldest first *)
}.

(** The lock operations and map writes of a journal. *)
Definition shown (j : list step) : list event :=
  omap (fun s => match s with Act e => Some e | _ => None end) j.

Arguments shown : simpl never.

Definition trace (w : world) : list event := shown (journal w).

Inductive outcome (A : Type) : Type :=
| Returns (a : A) (w : world)
| Blocks (w : world)   (* waits for the mutex in [w]; nobody is there to
                          release it *)
| Panics.              (* nil dereference, or unlock of a mutex that is not
                          held *)
Arguments Returns {A} a w.
Arguments Blocks {A} w.
Arguments Panics {A}.

Definition M (A : Type) : Type := world → outcome A.

#[global] Instance M_ret : MRet M := fun A a w => Returns a w.
#[global] Instance M_bind : MBind M := fun A B f m w =>
  match m w with
  | Returns a w' => f a w'
  | Blocks w' => Blocks w'
  | Panics => Panics
  end.

Definition panic {A} : M A := fun _ => Panics.

Definition emit (e : event) (h : store) (w : world) : world :=
  World h (ticks w) (journal w ++ [Act e]).

(** The world in which a [Lock] call waits: one more writer is waiting,
    nothing else has happened. *)
Definition queued (w : world) : world :=
  let m := mu (heap w) in
  World (set_mu (Mutex (writer m) (readers m) (S (waiting m))) (heap w))
        (ticks w) (journal w).

(** [s.mu.Lock()]: waits while a writer or readers hold the mutex, and
    behind the writers already waiting. *)
Definition mu_Lock : M unit := fun w =>
  let m := mu (heap w) in
  if writer m || negb (Nat.eqb (readers m) 0) || negb (Nat.eqb (waiting m) 0)
  then Blocks (queued w)
  else Returns tt (emit EvLock (set_mu (Mutex true 0 0) (heap w)) w).

(** [s.mu.Unlock()] *)
Definition mu_Unlock : M unit := fun w =>
  let m := mu (heap w) in
  if writer m
  then Returns tt (emit EvUnlock
                        (set_mu (Mutex false (readers m) (waiting m)) (heap w)) w)
  else Panics.

(** [s.mu.RLock()]: waits while a writer holds the mutex or waits for it. *)
Definition mu_RLock : M unit := fun w =>
  let m := mu (heap w) in
  if writer m || negb (Nat.eqb (waiting m) 0) then Blocks w
  else Returns tt (emit EvRLock
                        (set_mu (Mutex false (S (readers m)) 0) (heap w)) w).

(** [s.mu.RUnlock()] *)
Definition mu_RUnlock : M unit := fun w =>
  let m := mu (heap w) in
  match readers m with
  | O => Panics
  | S n => Returns tt (emit EvRUnlock
                            (set_mu (Mutex (writer m) n (waiting m)) (heap w)) w)
  end.

(** [defer f(); body]: [f] runs when [body] returns. *)
Definition defer {A} (f : M unit) (body : M A) : M A :=
  a ← body; f;; mret a.

(** Reading a field of [s]. *)
Definition load {A} (field : store → A) : M A := fun w => Returns (field (heap w)) w.

(** [s.items[id]], with the comma-ok result as an option. *)
Definition items_lookup (id : string) : M (option item) := fun w =>
  Returns (items (heap w) !! id)
          (World (heap w) (ticks w) (journal w ++ [Read id])).

(** [s.items[id] = it] *)
Definition items_store (id : string) (it : item) : M unit := fun w =>
  Returns tt (emit (EvStore id) (set_items (<[id := it]> (items (heap w))) (heap w)) w).

(** [delete(s.items, id)]; deleting an absent key does nothing to the map. *)
Definition items_delete (id : string) : M unit := fun w =>
  Returns tt (emit (EvDelete id) (set_items (delete id (items (heap w))) (heap w)) w).

(** [for id, item := range s.items { body }], visiting the keys in [order].
    A key deleted before the loop reaches it is not produced. *)
Fixpoint range_items (order : list string) (body : string → item → M unit) : M unit :=
  match order with
  | [] => mret tt
  | id :: rest =>
      m ← load items;
      match m !! id with
      | Some it => body id it
      | None => mret tt
      end;;
      range_items rest body
  end.

Section Memstore.

(** The wall clock: the [n]-th call of [time.Now] in an execution
    returns [clock n]. *)
Variable clock : nat → time.Time.

(** [time.Now()] *)
Definition time_Now : M time.Time := fun w =>
  Returns (clock (ticks w)) (World (heap w) (S (ticks w)) (journal w ++ [Clock])).

(** What the next [time.Now().UnixNano()] evaluates to. *)
Definition reading (w : world) : Z := time.UnixNano (clock (ticks w)).

(** ** The operations of the store *)

Definition get (id : string) : M (option item * option error) :=
  o ← items_lookup id;
  match o with
  | None => mret (None, Some ErrIncorrectCaptcha)
  | Some it =>
      now ← time_Now;
      if time.UnixNano now >? expiration it
      then mret (None, Some ErrExpiredCaptcha)
      else mret (Some it, None)
  end.

Definition getAndDel (id : string) : M (option item * option error) :=
  mu_Lock;;
  defer mu_Unlock (
    r ← get id;
    match r.2 with
    | Some _ => mret (None, r.2)
    | None => items_delete id;; mret (r.1, r.2)
    end).

(** [item.answer] on a [*item]. *)
Definition deref_answer (p : option item) : M string :=
  match p with
  | Some it => mret (answer it)
  | None => panic
  end.

Definition Get (id : string) (clear : bool) : M (string * option error) :=
  if clear then
    r ← getAndDel id;
    match r.2 with
    | Some _ => mret (EmptyString, r.2)
    | None => a ← deref_answer r.1; mret (a, None)
    end
  else
    mu_RLock;;
    defer mu_RUnlock (
      r ← get id;
      match r.2 with
      | Some _ => mret (EmptyString, r.2)
      | None => a ← deref_answer r.1; mret (a, None)
      end).

(** [Set] (the name is reserved in Rocq). *)
Definition Set_ (id answer : string) : M (option error) :=
  mu_Lock;;
  defer mu_Unlock (
    now ← time_Now;
    d ← load s_expiration;
    items_store id (Item (time.UnixNano (time.Add now d)) answer);;
    mret None).

(** The order in which [range] produces the keys of a map is chosen by the
    Go runtime. *)
Variable iteration : gmap string item → list string.

Definition deleteExpired : M unit :=
  t ← time_Now;
  let now := time.UnixNano t in
  mu_Lock;;
  defer mu_Unlock (
    m ← load items;
    range_items (iteration m) (fun id it =>
      if now >? expiration it then items_delete id else mret tt)).

(** ** Sequences of calls

    What a client and the background sweeper can do to a store, one call
    after the other. *)
Inductive call : Type :=
| CallGet (id : string) (clear : bool)
| CallSet (id answer : string)
| CallSweep.

Definition exec (c : call) : M unit :=
  match c with
  | CallGet id clear => Get id clear;; mret tt
  | CallSet id a => Set_ id a;; mret tt
  | CallSweep => deleteExpired
  end.

Fixpoint run (cs : list call) : M unit :=
  match cs with
  | [] => mret tt
  | c :: cs' => exec c;; run cs'
  end.

Definition sets (id : string) (c : call) : bool :=
  match c with
  | CallSet id' _ => bool_decide (id' = id)
  | _ => false
  end.

End Memstore.

(** The lock operations a [Get] that finds nothing valid leaves in the
    trace. *)
Definition bracket (clear : bool) : list event :=
  if clear then [EvLock; EvUnlock] else [EvRLock; EvRUnlock].

(** The journal of a critical section: [inside] between the lock operations
    of a consuming ([clear]) or non-consuming call. *)
Definition held (clear : bool) (inside : list step) : list step :=
  if clear
  then Act EvLock :: inside ++ [Act EvUnlock]
  else Act EvRLock :: inside ++ [Act EvRUnlock].

(** An entry is live at an [int64] instant that is not past its expiration. *)
Definition live (now : Z) (it : item) : Prop := now <= expiration it.

#[global] Instance live_dec now it : Decision (live now it).
Proof. unfold live. apply _. Defined.

(** What a sweep at [now] keeps. *)
Definition kept (now : Z) (m : gmap string item) : gmap string item :=
  filter (fun kv => live now kv.2) m.

(** The keys of a map, each once: what [range] can produce. *)
Definition keys (m : gmap string item) : list string := (map_to_list m).*1.

Definition idle (w : world) : Prop := mu (heap w) = unlocked.

Definition fresh (s : store) : world := World s 0 [].

(** The entry for [id] exists and is live at the next reading of the
    clock. *)
Definition unexpired (clock : nat → time.Time) (w : world) (id : string) : Prop :=
  ∃ it, items (heap w) !! id = Some it ∧ live (reading clock w) it.

(** The store holds [it] under [id] and nothing else under [id]: the list
    of its entries has exactly one pair with that key. *)
Definition sole_entry (m : gmap string item) (id : string) (it : item) : Prop :=
  filter (fun kv => kv.1 = id) (map_to_list m) = [(id, it)].

(** ** Concrete stores and clocks used to exercise the statements *)

(** A clock that starts in 2020 and advances one microsecond per reading. *)
Definition clock_us : nat → time.Time :=
  fun n => 1600000000000000000 + 1000 * Z.of_nat n.

(** A clock that advances five milliseconds per reading. *)
Definition clock_5ms : nat → time.Time :=
  fun n => 1600000000000000000 + 5 * time.Millisecond * Z.of_nat n.

(** An idle store with the default options and the entries [m], before any
    clock reading. *)
Definition stocked (m : gmap string item) : world :=
  World (Store unlocked (10 * time.Minute) time.Minute m) 0 [].

(** The same with one entry, which expires at [e]. *)
Definition holding (id : string) (e : Z) (a : string) : world :=
  stocked {[id := Item e a]}.

(** ** The background sweeper *)

(** [time.NewTicker(d)]: it panics when [d] is not positive.  The ticker
    itself is not kept: each of its firings is one iteration of the loop
    of [gc]. *)
Definition time_NewTicker (d : time.Duration) : M unit := fun w =>
  if d <=? 0 then Panics else Returns tt w.

Section Background.

Variable clock : nat → time.Time.
Variable iteration : gmap string item → list string.

(** The body of [for { select { case <-ticker.C: s.deleteExpired() } }],
    once per firing of the ticker. *)
Fixpoint gc_loop (firings : nat) : M unit :=
  match firings with
  | O => mret tt
  | S n => deleteExpired clock iteration;; gc_loop n
  end.

(** [gc]: the loop has no exit, so the goroutine is followed up to a number
    of firings of its ticker. *)
Definition gc (firings : nat) : M unit :=
  d ← load gcInterval;
  time_NewTicker d;;
  gc_loop firings.

(** [go s.gc()], the last statement of [New] before it returns: the
    goroutine that [New] leaves running on its store, followed for a
    number of firings.  A panic in it ends the whole process. *)
Definition New_gc (opts : list Option) (firings : nat) : outcome unit :=
  gc firings (fresh (New opts)).

End Background.

(** ** Vocabulary of the further properties *)

(** The options this package offers. *)
Definition is_Expiration (f : Option) : Prop := ∃ d, f = Expiration d.
Definition is_GCInterval (f : Option) : Prop := ∃ d, f = GCInterval d.
Definition is_option (f : Option) : Prop := is_Expiration f ∨ is_GCInterval f.

(** A clock whose [int64] readings never go backwards. *)
Definition steady (clock : nat → time.Time) : Prop :=
  ∀ n m, (n ≤ m)%nat → time.UnixNano (clock n) <= time.UnixNano (clock m).

(** The iteration produces every key of every map, each once. *)
Definition complete (iteration : gmap string item → list string) : Prop :=
  ∀ m, iteration m ≡ₚ keys m.

(** The number of [Set] calls in a sequence. *)
Fixpoint count_sets (cs : list call) : nat :=
  match cs with
  | [] => O
  | CallSet _ _ :: cs' => S (count_sets cs')
  | _ :: cs' => count_sets cs'
  end.

(** A clock that advances one microsecond per reading for a million
    readings and then stands still. *)
Definition clock_capped : nat → time.Time :=
  fun n => 1600000000000000000 + 1000 * Z.min (Z.of_nat n) 1000000.

(** * Properties *)

(** ** Arithmetic of [int64] *)

Lemma wrap64_id z : in_int64 z → wrap64 z = z.
Proof.
  unfold in_int64, int64_min, int64_max, wrap64. intros Hz.
  rewrite Z.mod_small; lia.
Qed.

Lemma wrap64_range z : in_int64 (wrap64 z).
Proof.
  unfold in_int64, int64_min, int64_max, wrap64.
  pose proof (Z.mod_pos_bound (z + 2 ^ 63) (2 ^ 64)). lia.
Qed.

Lemma UnixNano_Add_exact t d :
  in_int64 (t + d) → time.UnixNano (time.Add t d) = t + d.
Proof. apply wrap64_id. Qed.

(** ** What one call does to an idle store *)

Lemma shown_app j1 j2 : shown (j1 ++ j2) = shown j1 ++ shown j2.
Proof. apply omap_app. Qed.

Lemma trace_World h n j : trace (World h n j) = shown j.
Proof. reflexivity. Qed.

(** Goals about traces, from what is known of the journals. *)
Ltac traces :=
  unfold trace; cbn; rewrite ?shown_app, <- ?app_assoc; try done.

Lemma trace_of_journal w w' l :
  journal w' = journal w ++ l → trace w' = trace w ++ shown l.
Proof. unfold trace. intros ->. apply shown_app. Qed.

Lemma shown_Act (f : string → event) ds : shown (Act ∘ f <$> ds) = f <$> ds.
Proof. unfold shown. induction ds as [|d ds IH]; [done|]. cbn. by f_equal. Qed.

Lemma shown_held_reads clear id :
  shown (held clear [Read id]) = bracket clear
  ∧ shown (held clear [Read id; Clock]) = bracket clear.
Proof. by destruct clear. Qed.

Section Calls.

Variable clock : nat → time.Time.

Lemma get_eq id w :
  get clock id w =
  match items (heap w) !! id with
  | None => Returns (None, Some ErrIncorrectCaptcha)
                    (World (heap w) (ticks w) (journal w ++ [Read id]))
  | Some it =>
      if reading clock w >? expiration it
      then Returns (None, Some ErrExpiredCaptcha)
                   (World (heap w) (S (ticks w)) (journal w ++ [Read id; Clock]))
      else Returns (Some it, None)
                   (World (heap w) (S (ticks w)) (journal w ++ [Read id; Clock]))
  end.
Proof.
  unfold get, reading, items_lookup, mbind, M_bind. cbn.
  destruct (items (heap w) !! id) as [it|]; [|done].
  unfold time_Now. cbn. rewrite <- app_assoc. by destruct (_ >? _).
Qed.

Lemma Get_eq id clear w :
  idle w →
  Get clock id clear w =
  match items (heap w) !! id with
  | None =>
      Returns (EmptyString, Some ErrIncorrectCaptcha)
              (World (heap w) (ticks w) (journal w ++ held clear [Read id]))
  | Some it =>
      if reading clock w >? expiration it
      then Returns (EmptyString, Some ErrExpiredCaptcha)
                   (World (heap w) (S (ticks w))
                          (journal w ++ held clear [Read id; Clock]))
      else if clear
      then Returns (answer it, None)
                   (World (set_items (delete id (items (heap w))) (heap w))
                          (S (ticks w))
                          (journal w ++ held true [Read id; Clock; Act (EvDelete id)]))
      else Returns (answer it, None)
                   (World (heap w) (S (ticks w))
                          (journal w ++ held false [Read id; Clock]))
  end.
Proof.
  destruct w as [[m d g its] n tr]. unfold idle. cbn. intros ->.
  unfold Get, getAndDel, defer, mbind, M_bind.
  destruct clear; cbn; rewrite get_eq; cbn;
    (destruct (its !! id) as [it|]; cbn;
     [unfold reading; cbn; destruct (_ >? _); cbn|]);
    unfold emit, set_mu, set_items; cbn; rewrite <- ?app_assoc; reflexivity.
Qed.

Lemma Set_eq id v w :
  idle w →
  Set_ clock id v w =
  Returns None
    (World (set_items
              (<[id := Item (time.UnixNano (time.Add (clock (ticks w))
                                                     (s_expiration (heap w)))) v]>
                 (items (heap w)))
              (heap w))
           (S (ticks w))
           (journal w ++ held true [Clock; Act (EvStore id)])).
Proof.
  destruct w as [[m d g its] n tr]. unfold idle. cbn. intros ->.
  unfold Set_, defer, mbind, M_bind. cbn.
  unfold emit, set_mu, set_items. cbn. rewrite <- !app_assoc. reflexivity.
Qed.

Lemma gtb_live now it : live now it → (now >? expiration it) = false.
Proof. unfold live. intros H. destruct (Z.gtb_spec now (expiration it)); [lia | done]. Qed.

Lemma gtb_stale now it : now > expiration it → (now >? expiration it) = true.
Proof. intros H. destruct (Z.gtb_spec now (expiration it)); [done | lia]. Qed.

(** A [Get] of a live entry. *)
Lemma Get_live id clear it w :
  idle w →
  items (heap w) !! id = Some it →
  live (reading clock w) it →
  ∃ w', Get clock id clear w = Returns (answer it, None) w'
        ∧ heap w' = (if clear
                     then set_items (delete id (items (heap w))) (heap w)
                     else heap w)
        ∧ ticks w' = S (ticks w)
        ∧ trace w' = trace w ++ (if clear
                                 then [EvLock; EvDelete id; EvUnlock]
                                 else [EvRLock; EvRUnlock])
        ∧ journal w' = journal w ++
            held clear (Read id :: Clock ::
                        if clear then [Act (EvDelete id)] else []).
Proof.
  intros Hidle Hid Hlive. rewrite Get_eq by done.
  rewrite Hid, (gtb_live _ _ Hlive).
  destruct clear; eexists; (split; [reflexivity|]); repeat split; traces.
Qed.

(** A [Get] of a stale entry. *)
Lemma Get_stale id clear it w :
  idle w →
  items (heap w) !! id = Some it →
  reading clock w > expiration it →
  Get clock id clear w =
  Returns (EmptyString, Some ErrExpiredCaptcha)
          (World (heap w) (S (ticks w)) (journal w ++ held clear [Read id; Clock])).
Proof.
  intros Hidle Hid Hpast. rewrite Get_eq by done.
  by rewrite Hid, (gtb_stale _ _ Hpast).
Qed.

End Calls.

(** ** The sweep *)

Lemma bool_decide_elem_of_cons_ne (k id : string) (rest : list string) :
  k ≠ id → bool_decide (k ∈ id :: rest) = bool_decide (k ∈ rest).
Proof.
  intros Hne. apply bool_decide_ext. rewrite elem_of_cons.
  split; [intros [Heq|Hin]; [congruence | exact Hin] | by right].
Qed.

Section Sweep.

Variable now : Z.

(** Ranging over any list of keys deletes the stale entries among them and
    touches nothing else. *)
Lemma range_items_sweep order w :
  ∃ w', range_items order
          (fun id it => if now >? expiration it then items_delete id else mret tt) w
        = Returns tt w'
        ∧ mu (heap w') = mu (heap w)
        ∧ s_expiration (heap w') = s_expiration (heap w)
        ∧ gcInterval (heap w') = gcInterval (heap w)
        ∧ ticks w' = ticks w
        ∧ (∃ ds, journal w' = journal w ++ (Act ∘ EvDelete <$> ds))
        ∧ ∀ k, items (heap w') !! k =
               match items (heap w) !! k with
               | Some it =>
                   if (now >? expiration it) && bool_decide (k ∈ order)
                   then None else Some it
               | None => None
               end.
Proof.
  revert w. induction order as [|id rest IH]; intros w.
  - exists w. cbn. repeat split; try done.
    { exists []. cbn. by rewrite app_nil_r. }
    intros k. destruct (_ !! k) as [it|]; [|done].
    by rewrite andb_false_r.
  - assert (Hskip : ∀ w', mu (heap w') = mu (heap w) →
              s_expiration (heap w') = s_expiration (heap w) →
              gcInterval (heap w') = gcInterval (heap w) →
              ticks w' = ticks w →
              (∀ k, items (heap w') !! k =
                    match items (heap w) !! k with
                    | Some it =>
                        if (now >? expiration it) && bool_decide (k ∈ rest)
                        then None else Some it
                    | None => None
                    end) →
              (∀ it, items (heap w) !! id = Some it →
                     (now >? expiration it) = false) →
              ∀ k, items (heap w') !! k =
                   match items (heap w) !! k with
                   | Some it =>
                       if (now >? expiration it) && bool_decide (k ∈ id :: rest)
                       then None else Some it
                   | None => None
                   end).
    { intros w' _ _ _ _ Hlk Hfresh k. rewrite Hlk.
      destruct (items (heap w) !! k) as [it|] eqn:Hk; [|done].
      destruct (now >? expiration it) eqn:Hexp; [|done]. cbn.
      rewrite bool_decide_elem_of_cons_ne; [done|].
      intros ->. specialize (Hfresh _ Hk). congruence. }
    cbn [range_items]. unfold mbind, M_bind, load.
    destruct (items (heap w) !! id) as [it0|] eqn:Hid.
    + destruct (now >? expiration it0) eqn:Hexp.
      * unfold items_delete.
        destruct (IH (emit (EvDelete id)
                           (set_items (delete id (items (heap w))) (heap w)) w))
          as (w' & Hrun & Hmu & Hd & Hg & Ht & [ds Htr] & Hlk).
        exists w'. cbn in *. repeat split; try done.
        { exists (id :: ds). rewrite Htr. cbn. by rewrite <- app_assoc. }
        intros k. rewrite Hlk, lookup_delete.
        destruct (decide (id = k)) as [->|Hne].
        -- rewrite Hid, Hexp. cbn.
           rewrite bool_decide_eq_true_2; [done | apply list_elem_of_here].
        -- rewrite bool_decide_elem_of_cons_ne by done. done.
      * cbn. destruct (IH w) as (w' & Hrun & Hmu & Hd & Hg & Ht & Htr & Hlk).
        exists w'. repeat split; try done.
        apply Hskip; try done; intros it Hit; congruence.
    + cbn. destruct (IH w) as (w' & Hrun & Hmu & Hd & Hg & Ht & Htr & Hlk).
      exists w'. repeat split; try done.
      apply Hskip; try done; intros it Hit; congruence.
Qed.

End Sweep.

Section SweepPass.

Variable clock : nat → time.Time.
Variable iteration : gmap string item → list string.

(** One pass from an idle store: it returns, reads the clock once before
    taking the lock, holds the lock once around the deletions, and removes
    the stale entries the iteration produced. *)
Lemma deleteExpired_pass w :
  idle w →
  ∃ w', deleteExpired clock iteration w = Returns tt w'
        ∧ idle w'
        ∧ s_expiration (heap w') = s_expiration (heap w)
        ∧ gcInterval (heap w') = gcInterval (heap w)
        ∧ ticks w' = S (ticks w)
        ∧ (∃ ds, trace w' = trace w ++ [EvLock] ++ (EvDelete <$> ds) ++ [EvUnlock]
                 ∧ journal w' = journal w ++ [Clock; Act EvLock]
                                  ++ (Act ∘ EvDelete <$> ds) ++ [Act EvUnlock])
        ∧ ∀ k, items (heap w') !! k =
               match items (heap w) !! k with
               | Some it =>
                   if (reading clock w >? expiration it)
                      && bool_decide (k ∈ iteration (items (heap w)))
                   then None else Some it
               | None => None
               end.
Proof.
  destruct w as [[m d g its] n tr]. unfold idle. cbn. intros ->.
  unfold deleteExpired, defer, mbind, M_bind. cbn.
  set (w1 := emit EvLock _ _).
  destruct (range_items_sweep (time.UnixNano (clock n)) (iteration its) w1)
    as (w' & Hrun & Hmu & Hd & Hg & Ht & [ds Htr] & Hlk).
  rewrite Hrun.
  unfold mu_Unlock. rewrite Hmu. cbn.
  eexists. split; [reflexivity|]. cbn.
  repeat split; try done.
  exists ds.
  assert (Hj : journal w' ++ [Act EvUnlock]
               = tr ++ [Clock; Act EvLock] ++ (Act ∘ EvDelete <$> ds)
                    ++ [Act EvUnlock]).
  { rewrite Htr. cbn. by rewrite <- !app_assoc. }
  split; [|exact Hj].
  unfold trace. cbn. rewrite Hj, !shown_app, shown_Act. done.
Qed.

(** When the iteration produces every key, the pass computes [kept]. *)
Lemma deleteExpired_kept w :
  idle w →
  iteration (items (heap w)) ≡ₚ keys (items (heap w)) →
  ∃ w', deleteExpired clock iteration w = Returns tt w'
        ∧ items (heap w') = kept (reading clock w) (items (heap w)).
Proof.
  intros Hidle Hperm.
  destruct (deleteExpired_pass w Hidle) as (w' & Hrun & _ & _ & _ & _ & _ & Hlk).
  exists w'. split; [done|].
  apply map_eq. intros k. rewrite Hlk. unfold kept.
  destruct (items (heap w) !! k) as [it|] eqn:Hk.
  - assert (Hin : k ∈ iteration (items (heap w))).
    { rewrite Hperm. unfold keys. apply list_elem_of_fmap.
      exists (k, it). split; [done|]. by apply elem_of_map_to_list. }
    rewrite (bool_decide_eq_true_2 _ Hin), andb_true_r.
    destruct (reading clock w >? expiration it) eqn:Hexp; symmetry.
    + apply map_lookup_filter_None. right. intros it' Hit'. cbn.
      unfold live. assert (it' = it) as -> by congruence. lia.
    + apply map_lookup_filter_Some. split; [done|]. cbn. unfold live. lia.
  - symmetry. apply map_lookup_filter_None. by left.
Qed.

End SweepPass.

(** ** Invariants of call sequences *)

Section Sequences.

Variable clock : nat → time.Time.
Variable iteration : gmap string item → list string.

Lemma Get_returns id clear w :
  idle w →
  ∃ r w', Get clock id clear w = Returns r w'
          ∧ idle w'
          ∧ ∀ k, items (heap w) !! k = None → items (heap w') !! k = None.
Proof.
  intros Hidle. rewrite Get_eq by done.
  destruct (items (heap w) !! id) as [it|] eqn:Hid.
  - destruct (reading clock w >? expiration it).
    + by eexists _, _.
    + destruct clear; eexists _, _; (split; [reflexivity|]); cbn.
      * split; [done|]. intros k Hk. rewrite lookup_delete. by case_decide.
      * done.
  - by eexists _, _.
Qed.

Lemma Set_returns id v w :
  idle w →
  ∃ w', Set_ clock id v w = Returns None w'
        ∧ idle w'
        ∧ ∀ k, k ≠ id → items (heap w') !! k = items (heap w) !! k.
Proof.
  intros Hidle. rewrite Set_eq by done. eexists. split; [reflexivity|]. cbn.
  split; [done|]. intros k Hk. by rewrite lookup_insert_ne.
Qed.

(** A call other than a [Set] of [id] returns, leaves the store idle and
    does not bring an entry for [id] into being. *)
Lemma exec_absent id c w :
  idle w → items (heap w) !! id = None → sets id c = false →
  ∃ w', exec clock iteration c w = Returns tt w'
        ∧ idle w' ∧ items (heap w') !! id = None.
Proof.
  intros Hidle Hid Hc. destruct c as [id' clear|id' a|]; cbn in *.
  - destruct (Get_returns id' clear w Hidle) as (r & w' & HG & Hidle' & Hkeep).
    exists w'. unfold mbind, M_bind. rewrite HG. auto.
  - destruct (Set_returns id' a w Hidle) as (w' & HS & Hidle' & Hkeep).
    exists w'. unfold mbind, M_bind. rewrite HS.
    apply bool_decide_eq_false in Hc.
    repeat split; [done|]. rewrite Hkeep; [done | congruence].
  - destruct (deleteExpired_pass clock iteration w Hidle)
      as (w' & HD & Hidle' & _ & _ & _ & _ & Hlk).
    exists w'. repeat split; [done..|]. by rewrite Hlk, Hid.
Qed.

Lemma run_absent id cs w :
  idle w → items (heap w) !! id = None → forallb (fun c => negb (sets id c)) cs = true →
  ∃ w', run clock iteration cs w = Returns tt w'
        ∧ idle w' ∧ items (heap w') !! id = None.
Proof.
  revert w. induction cs as [|c cs IH]; intros w Hidle Hid Hcs.
  - by exists w.
  - cbn in Hcs. apply andb_true_iff in Hcs as [Hc Hcs].
    apply negb_true_iff in Hc.
    destruct (exec_absent id c w Hidle Hid Hc) as (w1 & Hex & Hidle1 & Hid1).
    destruct (IH w1 Hidle1 Hid1 Hcs) as (w' & Hrun & Hidle' & Hid').
    exists w'. cbn. unfold mbind, M_bind. rewrite Hex. auto.
Qed.

End Sequences.

Lemma sole_entry_lookup (m : gmap string item) id it :
  m !! id = Some it → sole_entry m id it.
Proof.
  intros Hid. unfold sole_entry.
  assert (Hperm : map_to_list m ≡ₚ (id, it) :: map_to_list (delete id m)).
  { rewrite <- (insert_delete_id m id it) at 1 by done.
    apply map_to_list_insert, lookup_delete_eq. }
  apply Permutation_singleton_r. rewrite Hperm.
  rewrite filter_cons_True by done.
  assert (Hnone : filter (fun kv : string * item => kv.1 = id)
                         (map_to_list (delete id m)) = []).
  { destruct (filter _ (map_to_list (delete id m))) as [|[k x] l] eqn:Hf; [done|].
    assert (Hin : (k, x) ∈ filter (fun kv : string * item => kv.1 = id)
                                  (map_to_list (delete id m)))
      by (rewrite Hf; apply list_elem_of_here).
    apply list_elem_of_filter in Hin as [Hk Hin]. cbn in Hk. subst k.
    apply elem_of_map_to_list in Hin. by rewrite lookup_delete_eq in Hin. }
  by rewrite Hnone.
Qed.

(** * The claims *)

Section Claims.

Variable clock : nat → time.Time.
Variable iteration : gmap string item → list string.

(** C1 (round trip).  From an idle store [Set(id, v)] returns nil, and if
    the entry for [id] has not expired when the [Get(id, false)] that
    follows reads the clock, that [Get] returns [(v, nil)]. *)
Theorem Set_then_Get_roundtrip id v w :
  idle w →
  ∃ w1, Set_ clock id v w = Returns None w1
        ∧ (unexpired clock w1 id →
           ∃ w2, Get clock id false w1 = Returns (v, None) w2).
Proof.
  intros Hidle. rewrite Set_eq by done. eexists. split; [reflexivity|].
  intros (it & Hit & Hlive).
  lazymatch type of Hit with
  | items (heap ?w1) !! _ = _ => assert (Hidle1 : idle w1) by exact Hidle
  end.
  destruct (Get_live clock id false it _ Hidle1 Hit Hlive) as (w2 & HG & _).
  exists w2. rewrite HG. cbn in Hit. rewrite lookup_insert_eq in Hit.
  by injection Hit as <-.
Qed.

(** C2 (consume once).  A consuming [Get] of a live entry returns its
    answer with a nil error and removes the entry in the critical section
    in which it found it: all it does is take the lock, look the id up,
    read the clock for the expiry check, delete the entry and release the
    lock, in that order.  After that, whatever calls follow, as long as
    none of them is a [Set] of the same id, every [Get] of the id reports
    [ErrIncorrectCaptcha] (NotFound). *)
Theorem Get_consume_once id it w :
  idle w →
  items (heap w) !! id = Some it →
  live (reading clock w) it →
  ∃ w1, Get clock id true w = Returns (answer it, None) w1
        ∧ items (heap w1) = delete id (items (heap w))
        ∧ trace w1 = trace w ++ [EvLock; EvDelete id; EvUnlock]
        ∧ journal w1 = journal w ++ [Act EvLock; Read id; Clock;
                                     Act (EvDelete id); Act EvUnlock]
        ∧ ∀ cs clear,
            forallb (fun c => negb (sets id c)) cs = true →
            ∃ w2 w3, run clock iteration cs w1 = Returns tt w2
                     ∧ Get clock id clear w2 =
                       Returns (EmptyString, Some ErrIncorrectCaptcha) w3.
Proof.
  intros Hidle Hid Hlive.
  destruct (Get_live clock id true it w Hidle Hid Hlive)
    as (w1 & HG & Hheap & Hticks & Htrace & Hjournal).
  exists w1. split; [done|]. split; [by rewrite Hheap|]. split; [done|].
  split; [exact Hjournal|].
  intros cs clear Hcs.
  assert (Hidle1 : idle w1) by (unfold idle; by rewrite Hheap).
  assert (Hid1 : items (heap w1) !! id = None)
    by (rewrite Hheap; apply lookup_delete_eq).
  destruct (run_absent clock iteration id cs w1 Hidle1 Hid1 Hcs)
    as (w2 & Hrun & Hidle2 & Hid2).
  exists w2. eexists. split; [done|].
  rewrite Get_eq by done. rewrite Hid2. reflexivity.
Qed.

(** C3 (expired).  When the entry for [id] exists and the clock reads past
    its expiration, [Get(id, clear)] reports [ErrExpiredCaptcha] with the
    empty string for either value of [clear], and the store is left as it
    was: no entry is deleted, only the lock was taken and released. *)
Theorem Get_expired id clear it w :
  idle w →
  items (heap w) !! id = Some it →
  reading clock w > expiration it →
  ∃ w1, Get clock id clear w = Returns (EmptyString, Some ErrExpiredCaptcha) w1
        ∧ heap w1 = heap w
        ∧ items (heap w1) !! id = Some it
        ∧ trace w1 = trace w ++ bracket clear.
Proof.
  intros Hidle Hid Hpast. rewrite (Get_stale clock id clear it w) by done.
  eexists. split; [reflexivity|]. repeat split; try done.
  unfold trace. cbn. rewrite shown_app.
  by destruct (shown_held_reads clear id) as [_ ->].
Qed.

(** C4 (sweep).  One pass of [deleteExpired] over an idle store, when
    [range] produces every key once, returns (it has no error result and
    neither blocks nor panics), reads the clock exactly once, removes
    every entry whose expiration that one reading is past, and leaves
    every other entry, and every absent key, as it was. *)
Theorem deleteExpired_sweeps w :
  idle w →
  iteration (items (heap w)) ≡ₚ keys (items (heap w)) →
  ∃ w1, deleteExpired clock iteration w = Returns tt w1
        ∧ ticks w1 = S (ticks w)
        ∧ (∀ id it, items (heap w) !! id = Some it →
                    reading clock w > expiration it →
                    items (heap w1) !! id = None)
        ∧ (∀ id it, items (heap w) !! id = Some it →
                    reading clock w <= expiration it →
                    items (heap w1) !! id = Some it)
        ∧ (∀ id, items (heap w) !! id = None → items (heap w1) !! id = None)
        ∧ items (heap w1) = kept (reading clock w) (items (heap w)).
Proof.
  intros Hidle Hperm.
  destruct (deleteExpired_pass clock iteration w Hidle)
    as (w1 & Hrun & _ & _ & _ & Hticks & _ & Hlk).
  destruct (deleteExpired_kept clock iteration w Hidle Hperm)
    as (w1' & Hrun' & Hkept).
  assert (w1' = w1) as -> by congruence.
  exists w1. repeat split; try done.
  - intros id it Hid Hpast. rewrite Hkept. unfold kept.
    apply map_lookup_filter_None. right. intros it' Hit'. cbn. unfold live.
    assert (it' = it) as -> by congruence. lia.
  - intros id it Hid Hlive. rewrite Hkept. unfold kept.
    apply map_lookup_filter_Some. by split.
  - intros id Hid. by rewrite Hlk, Hid.
Qed.

(** C5 (Set), as the code has it.  [Set(id, value)] on an idle store
    returns nil.  Afterwards the map is the old one with [id] bound to
    [value] and to the expiration [time.Now().Add(s.expiration).UnixNano()]:
    the clock reading plus the configured expiration, wrapped around to an
    [int64], and so equal to that sum exactly when the sum is an [int64].
    That entry is the only one for [id], and the resulting world is the
    same whatever was stored under [id] before. *)
Theorem Set_inserts id v w :
  idle w →
  ∃ w1 e, Set_ clock id v w = Returns None w1
        ∧ e = time.UnixNano (time.Add (clock (ticks w)) (s_expiration (heap w)))
        ∧ e = wrap64 (clock (ticks w) + s_expiration (heap w))
        ∧ (in_int64 (clock (ticks w) + s_expiration (heap w)) ↔
           e = clock (ticks w) + s_expiration (heap w))
        ∧ items (heap w1) = <[id := Item e v]> (items (heap w))
        ∧ sole_entry (items (heap w1)) id (Item e v)
        ∧ ∀ m', delete id m' = delete id (items (heap w)) →
                Set_ clock id v (World (set_items m' (heap w)) (ticks w) (journal w))
                = Returns None w1.
Proof.
  intros Hidle. rewrite Set_eq by done. eexists _, _.
  split; [reflexivity|]. split; [reflexivity|]. split; [reflexivity|]. cbn.
  split.
  { split; [apply UnixNano_Add_exact|].
    intros He. unfold time.UnixNano, time.Add in He. rewrite <- He.
    apply wrap64_range. }
  split; [done|].
  split; [apply sole_entry_lookup, lookup_insert_eq|].
  intros m' Hm'. rewrite Set_eq by done. cbn. do 2 f_equal.
  unfold set_items. cbn. f_equal.
  rewrite <- (insert_delete_eq m'), <- (insert_delete_eq (items (heap w))).
  by rewrite Hm'.
Qed.

(** C6 (overwrite), as the code has it.  After [Set(id, a)] and
    [Set(id, b)] on an idle store the only entry for [id] holds [b], with
    the expiration [e] the second [Set] computed.  The [Get(id, false)]
    that follows returns [(b, nil)] if that entry has not expired when
    [Get] reads the clock (reading <= [e]), and the empty string with
    [ErrExpiredCaptcha] if it has (reading > [e]).  The world the two
    calls leave is the same whatever the first value was, so no later call
    can observe [a]. *)
Theorem Set_overwrites id a b w :
  idle w →
  ∃ w2 e, (Set_ clock id a;; Set_ clock id b) w = Returns None w2
        ∧ items (heap w2) !! id = Some (Item e b)
        ∧ sole_entry (items (heap w2)) id (Item e b)
        ∧ (unexpired clock w2 id ↔ reading clock w2 <= e)
        ∧ (unexpired clock w2 id →
           ∃ w3, Get clock id false w2 = Returns (b, None) w3)
        ∧ (reading clock w2 > e →
           ∃ w3, Get clock id false w2
                 = Returns (EmptyString, Some ErrExpiredCaptcha) w3)
        ∧ ∀ a', (Set_ clock id a';; Set_ clock id b) w = Returns None w2.
Proof.
  intros Hidle.
  assert (Hseq : ∀ x, (Set_ clock id x;; Set_ clock id b) w =
    Returns None
      (World (set_items
                (<[id := Item (time.UnixNano (time.Add (clock (S (ticks w)))
                                                       (s_expiration (heap w)))) b]>
                   (items (heap w)))
                (heap w))
             (S (S (ticks w)))
             (journal w ++ held true [Clock; Act (EvStore id)]
                        ++ held true [Clock; Act (EvStore id)]))).
  { intros x. unfold mbind at 1, M_bind at 1. rewrite Set_eq by done.
    rewrite Set_eq by done. cbn. unfold set_items. cbn.
    by rewrite insert_insert_eq, <- app_assoc. }
  eexists _, _. split; [apply Hseq|].
  set (w2 := World _ _ _).
  assert (Hidle2 : idle w2) by exact Hidle.
  assert (Hid : items (heap w2) !! id
                = Some (Item (time.UnixNano (time.Add (clock (S (ticks w)))
                                               (s_expiration (heap w)))) b))
    by (cbn; apply lookup_insert_eq).
  split; [exact Hid|].
  split; [by apply sole_entry_lookup|].
  split.
  { split.
    - intros (it & Hit & Hlive). rewrite Hid in Hit. by injection Hit as <-.
    - intros Hle. eexists. by split. }
  split; [|split; [|intros a'; apply Hseq]].
  - intros (it & Hit & Hlive).
    destruct (Get_live clock id false it _ Hidle2 Hit Hlive) as (w3 & HG & _).
    exists w3. rewrite HG. rewrite Hid in Hit. by injection Hit as <-.
  - intros Hpast. eexists. by apply (Get_stale clock id false _ w2 Hidle2 Hid).
Qed.

(** C7 (unknown key).  With no entry for [id], [Get(id, clear)] reports
    [ErrIncorrectCaptcha] (NotFound) for either value of [clear], and
    leaves the store as it was. *)
Theorem Get_unknown id clear w :
  idle w →
  items (heap w) !! id = None →
  ∃ w1, Get clock id clear w = Returns (EmptyString, Some ErrIncorrectCaptcha) w1
        ∧ heap w1 = heap w.
Proof.
  intros Hidle Hid. rewrite Get_eq by done. rewrite Hid. by eexists.
Qed.

(** C8 (non-consuming reads are pure).  [Get(id, false)] on an idle store
    returns and leaves the whole store, map included, as it was, whatever
    it answers: its only events are [RLock] and [RUnlock].  On an entry
    that is live at both readings of the clock, two such calls in a row
    both return [(v, nil)], with the same store before, between and
    after. *)
Theorem Get_peek_frame id w :
  idle w →
  (∃ r w1, Get clock id false w = Returns r w1
           ∧ heap w1 = heap w
           ∧ trace w1 = trace w ++ [EvRLock; EvRUnlock])
  ∧ ∀ it, items (heap w) !! id = Some it →
          live (time.UnixNano (clock (ticks w))) it →
          live (time.UnixNano (clock (S (ticks w)))) it →
          ∃ w1 w2, Get clock id false w = Returns (answer it, None) w1
                   ∧ Get clock id false w1 = Returns (answer it, None) w2
                   ∧ heap w1 = heap w ∧ heap w2 = heap w.
Proof.
  intros Hidle. split.
  - rewrite Get_eq by done.
    destruct (items (heap w) !! id) as [it|];
      [destruct (reading clock w >? expiration it)|];
      eexists _, _; (split; [reflexivity|]); split; traces.
  - intros it Hid Hlive1 Hlive2.
    destruct (Get_live clock id false it w Hidle Hid Hlive1)
      as (w1 & HG1 & Hheap1 & Hticks1 & _).
    assert (Hidle1 : idle w1) by (unfold idle; by rewrite Hheap1).
    destruct (Get_live clock id false it w1 Hidle1) as (w2 & HG2 & Hheap2 & _).
    { by rewrite Hheap1. }
    { unfold reading. by rewrite Hticks1. }
    exists w1, w2. repeat split; try done. by rewrite Hheap2.
Qed.

(** C9 (strict comparison).  When the clock reads exactly the expiration
    of the entry for [id], [Get(id, clear)] still returns its answer with
    a nil error, and a sweep pass sampling that same reading keeps the
    entry. *)
Theorem expiry_is_strict id it w :
  idle w →
  items (heap w) !! id = Some it →
  reading clock w = expiration it →
  (∀ clear, ∃ w1, Get clock id clear w = Returns (answer it, None) w1)
  ∧ ∃ w1, deleteExpired clock iteration w = Returns tt w1
          ∧ items (heap w1) !! id = Some it.
Proof.
  intros Hidle Hid Hnow.
  assert (Hlive : live (reading clock w) it) by (unfold live; lia).
  split.
  - intros clear.
    destruct (Get_live clock id clear it w Hidle Hid Hlive) as (w1 & HG & _).
    by exists w1.
  - destruct (deleteExpired_pass clock iteration w Hidle)
      as (w1 & Hrun & _ & _ & _ & _ & _ & Hlk).
    exists w1. split; [done|].
    by rewrite Hlk, Hid, (gtb_live _ _ Hlive).
Qed.

(** C10 (errors come with the empty string).  [Get(id, clear)] on an idle
    store returns; and from any store, whenever it returns a non-nil
    error the string returned with it is empty. *)
Theorem Get_error_value id clear w :
  (idle w → ∃ r w1, Get clock id clear w = Returns r w1)
  ∧ ∀ v e w1, Get clock id clear w = Returns (v, Some e) w1 → v = EmptyString.
Proof.
  split.
  - intros Hidle.
    destruct (Get_returns clock id clear w Hidle) as (r & w1 & HG & _).
    by exists r, w1.
  - intros v e w1. destruct w as [[[wr rd wt] d g its] n tr].
    unfold Get, getAndDel, defer, deref_answer, panic, get, time_Now,
      items_lookup, load.
    unfold mbind, M_bind, mret, M_ret, mu_Lock, mu_Unlock, mu_RLock, mu_RUnlock,
      items_delete, emit, set_mu, set_items.
    cbn. intros HG.
    repeat case_match; simplify_eq/=; done.
Qed.

End Claims.

(** The overwrite property fails as an unconditional statement: with an
    expiration of one millisecond and five milliseconds between clock
    readings, the [Get] that follows the two [Set]s finds the entry already
    expired. *)
Lemma overwrite_then_Get_may_expire :
  ¬ (∀ clock id a b w,
       idle w →
       ∃ w3, (Set_ clock id a;; Set_ clock id b;; Get clock id false) w
             = Returns (b, None) w3).
Proof.
  intros H.
  destruct (H clock_5ms "c6" "a" "b"
              (fresh (New [Expiration time.Millisecond])) eq_refl) as [w3 Hw3].
  vm_compute in Hw3. discriminate Hw3.
Qed.

(** The expiration [Set] stores is not the sum of the clock reading and the
    configured expiration for every configuration: with the largest
    [time.Duration] as expiration the sum is beyond [int64] and the stored
    value is the wrapped one, a negative instant. *)
Lemma Set_expiration_may_wrap :
  ¬ (∀ clock id v w,
       idle w →
       ∃ w1 it, Set_ clock id v w = Returns None w1
                ∧ items (heap w1) !! id = Some it
                ∧ answer it = v
                ∧ expiration it = clock (ticks w) + s_expiration (heap w)).
Proof.
  intros H.
  destruct (H clock_us "c5" "42"
              (fresh (New [Expiration 9223372036854775807])) eq_refl)
    as (w1 & it & HS & Hit & _ & He).
  vm_compute in HS. injection HS as <-.
  vm_compute in Hit. injection Hit as <-.
  vm_compute in He. discriminate He.
Qed.

(** ** The statements at concrete stores *)

Lemma Set_then_Get_roundtrip_witness :
  ∃ w2, (Set_ clock_us "c1" "4711";; Get clock_us "c1" false) (fresh (New []))
        = Returns ("4711", None) w2.
Proof.
  destruct (Set_then_Get_roundtrip clock_us "c1" "4711" (fresh (New [])))
    as (w1 & HS & HG); [reflexivity|].
  unfold mbind, M_bind. rewrite HS. apply HG.
  vm_compute in HS. injection HS as <-.
  eexists. split; [reflexivity|]. unfold live. vm_compute. discriminate.
Defined.

Lemma Get_consume_once_witness :
  ∃ w1, Get clock_us "c2" true (holding "c2" 1700000000000000000 "9")
        = Returns ("9", None) w1
        ∧ ∃ w2 w3,
            run clock_us keys
                [CallGet "other" true; CallSweep; CallSet "other" "1";
                 CallGet "c2" false] w1 = Returns tt w2
            ∧ Get clock_us "c2" true w2
              = Returns (EmptyString, Some ErrIncorrectCaptcha) w3.
Proof.
  destruct (Get_consume_once clock_us keys "c2" (Item 1700000000000000000 "9")
              (holding "c2" 1700000000000000000 "9"))
    as (w1 & HG & _ & _ & _ & Hlater);
    [reflexivity | reflexivity | unfold live; vm_compute; discriminate |].
  exists w1. split; [exact HG|]. apply Hlater. reflexivity.
Defined.

Lemma Get_expired_witness :
  ∃ w1, Get clock_us "c3" true (holding "c3" 1500000000000000000 "9")
        = Returns (EmptyString, Some ErrExpiredCaptcha) w1
        ∧ heap w1 = heap (holding "c3" 1500000000000000000 "9")
        ∧ items (heap w1) !! "c3" = Some (Item 1500000000000000000 "9")
        ∧ trace w1 = [EvLock; EvUnlock].
Proof.
  apply (Get_expired clock_us "c3" true (Item 1500000000000000000 "9"));
    [reflexivity | reflexivity | vm_compute; reflexivity].
Defined.

Lemma deleteExpired_sweeps_witness :
  ∃ w1, deleteExpired clock_us (fun m => reverse (keys m))
          (stocked (<["old" := Item 1500000000000000000 "1"]>
                      {["new" := Item 1700000000000000000 "2"]}))
        = Returns tt w1
        ∧ ticks w1 = 1%nat
        ∧ items (heap w1) !! "old" = None
        ∧ items (heap w1) !! "new" = Some (Item 1700000000000000000 "2").
Proof.
  destruct (deleteExpired_sweeps clock_us (fun m => reverse (keys m))
              (stocked (<["old" := Item 1500000000000000000 "1"]>
                          {["new" := Item 1700000000000000000 "2"]})))
    as (w1 & HD & Ht & Hdel & Hkeep & _);
    [reflexivity | apply reverse_Permutation |].
  exists w1. split; [exact HD|]. split; [exact Ht|]. split.
  - apply (Hdel "old" (Item 1500000000000000000 "1"));
      [reflexivity | vm_compute; reflexivity].
  - apply (Hkeep "new" (Item 1700000000000000000 "2"));
      [reflexivity | vm_compute; discriminate].
Defined.

Lemma Set_inserts_witness :
  ∃ w1, Set_ clock_us "c5" "42" (holding "c5" 1 "old") = Returns None w1
        ∧ items (heap w1) !! "c5" = Some (Item 1600000600000000000 "42")
        ∧ Set_ clock_us "c5" "42" (stocked ∅) = Returns None w1.
Proof.
  destruct (Set_inserts clock_us "c5" "42" (holding "c5" 1 "old"))
    as (w1 & e & HS & He & _ & Hsum & Hitems & _ & Hprior); [reflexivity|].
  exists w1. split; [exact HS|]. split.
  - rewrite Hitems, lookup_insert_eq.
    rewrite (proj1 Hsum); [reflexivity | vm_compute; split; discriminate].
  - apply (Hprior ∅). reflexivity.
Defined.

Lemma Set_overwrites_witness :
  ∃ w2 w3, (Set_ clock_us "c6" "a";; Set_ clock_us "c6" "b") (fresh (New []))
           = Returns None w2
           ∧ Get clock_us "c6" false w2 = Returns ("b", None) w3.
Proof.
  destruct (Set_overwrites clock_us "c6" "a" "b" (fresh (New [])))
    as (w2 & e & HS & _ & _ & _ & HG & _); [reflexivity|].
  exists w2. destruct HG as [w3 HG].
  - pose proof HS as HS'. vm_compute in HS'. injection HS' as <-.
    eexists. split; [reflexivity|]. unfold live. vm_compute. discriminate.
  - exists w3. split; [exact HS | exact HG].
Defined.

Lemma Get_unknown_witness :
  ∃ w1, Get clock_us "missing" true (holding "c7" 1700000000000000000 "9")
        = Returns (EmptyString, Some ErrIncorrectCaptcha) w1
        ∧ heap w1 = heap (holding "c7" 1700000000000000000 "9").
Proof.
  apply (Get_unknown clock_us "missing" true); reflexivity.
Defined.

Lemma Get_peek_frame_witness :
  ∃ w1 w2, Get clock_us "c8" false (holding "c8" 1700000000000000000 "9")
           = Returns ("9", None) w1
           ∧ Get clock_us "c8" false w1 = Returns ("9", None) w2
           ∧ heap w1 = heap (holding "c8" 1700000000000000000 "9")
           ∧ heap w2 = heap (holding "c8" 1700000000000000000 "9").
Proof.
  destruct (Get_peek_frame clock_us "c8" (holding "c8" 1700000000000000000 "9"))
    as [_ Htwice]; [reflexivity|].
  apply (Htwice (Item 1700000000000000000 "9"));
    [reflexivity | unfold live; vm_compute; discriminate
                 | unfold live; vm_compute; discriminate].
Defined.

Lemma expiry_is_strict_witness :
  (∃ w1, Get clock_us "c9" true (holding "c9" 1600000000000000000 "9")
         = Returns ("9", None) w1)
  ∧ ∃ w1, deleteExpired clock_us keys (holding "c9" 1600000000000000000 "9")
          = Returns tt w1
          ∧ items (heap w1) !! "c9" = Some (Item 1600000000000000000 "9").
Proof.
  destruct (expiry_is_strict clock_us keys "c9" (Item 1600000000000000000 "9")
              (holding "c9" 1600000000000000000 "9"))
    as [HG HD]; [reflexivity | reflexivity | vm_compute; reflexivity |].
  split; [apply (HG true) | exact HD].
Defined.

Lemma Get_error_value_witness :
  ∃ v e w1, Get clock_us "c10" false (holding "c10" 1500000000000000000 "9")
            = Returns (v, Some e) w1
            ∧ v = EmptyString.
Proof.
  destruct (Get_error_value clock_us "c10" false
              (holding "c10" 1500000000000000000 "9")) as [Hret Herr].
  destruct (Hret eq_refl) as ([v err] & w1 & HG).
  pose proof HG as HG'. vm_compute in HG'. injection HG' as <- <- <-.
  eexists _, _, _. split; [exact HG|]. exact (Herr _ _ _ HG).
Defined.

(** * Further properties of the code *)

(** ** What each call does, in one place *)

Section Effects.

Variable clock : nat → time.Time.
Variable iteration : gmap string item → list string.

Lemma gtb_false_live now it : (now >? expiration it) = false → live now it.
Proof. unfold live. intros H. destruct (Z.gtb_spec now (expiration it)); [done | lia]. Qed.

Lemma Get_effect id clear w :
  idle w →
  ∃ r w', Get clock id clear w = Returns r w'
    ∧ idle w'
    ∧ s_expiration (heap w') = s_expiration (heap w)
    ∧ gcInterval (heap w') = gcInterval (heap w)
    ∧ (ticks w ≤ ticks w' ≤ S (ticks w))%nat
    ∧ (∀ k, k ≠ id → items (heap w') !! k = items (heap w) !! k)
    ∧ (items (heap w') !! id = items (heap w) !! id
       ∨ (items (heap w') !! id = None
          ∧ ∃ it, items (heap w) !! id = Some it ∧ live (reading clock w) it))
    ∧ (r.2 = None →
       ∃ it, items (heap w) !! id = Some it ∧ live (reading clock w) it
             ∧ r.1 = answer it).
Proof.
  intros Hidle. rewrite Get_eq by done.
  destruct (items (heap w) !! id) as [it|] eqn:Hid.
  - destruct (reading clock w >? expiration it) eqn:Hexp.
    + eexists _, _. split; [reflexivity|]. cbn.
      repeat split; try done; try lia. by left.
    + apply gtb_false_live in Hexp.
      destruct clear; eexists _, _; (split; [reflexivity|]); cbn.
      * repeat split; try done; try lia.
        -- intros k Hk. by rewrite lookup_delete_ne.
        -- right. split; [apply lookup_delete_eq | by exists it].
        -- by exists it.
      * repeat split; try done; try lia; [by left | by exists it].
  - eexists _, _. split; [reflexivity|]. cbn.
    repeat split; try done; try lia. by left.
Qed.

Lemma Set_effect id v w :
  idle w →
  ∃ w', Set_ clock id v w = Returns None w'
    ∧ idle w'
    ∧ s_expiration (heap w') = s_expiration (heap w)
    ∧ gcInterval (heap w') = gcInterval (heap w)
    ∧ ticks w' = S (ticks w)
    ∧ (∀ k, k ≠ id → items (heap w') !! k = items (heap w) !! k)
    ∧ items (heap w') =
      <[id := Item (time.UnixNano (time.Add (clock (ticks w))
                                            (s_expiration (heap w)))) v]>
        (items (heap w)).
Proof.
  intros Hidle. rewrite Set_eq by done. eexists. split; [reflexivity|]. cbn.
  repeat split; try done. intros k Hk. by rewrite lookup_insert_ne.
Qed.

(** A pass of the sweeper only takes entries away. *)
Lemma deleteExpired_subseteq w w' :
  idle w →
  deleteExpired clock iteration w = Returns tt w' →
  items (heap w') ⊆ items (heap w).
Proof.
  intros Hidle Hrun.
  destruct (deleteExpired_pass clock iteration w Hidle)
    as (w1 & Hrun1 & _ & _ & _ & _ & _ & Hlk).
  assert (w1 = w') as -> by congruence.
  apply map_subseteq_spec. intros k it. rewrite Hlk.
  destruct (items (heap w) !! k) as [it'|]; [|done].
  by destruct (_ && _).
Qed.

End Effects.

(** ** Construction *)

Lemma New_snoc opts f : New (opts ++ [f]) = f (New opts).
Proof. unfold New. by rewrite foldl_app. Qed.

Lemma foldl_GCInterval_expiration s gs :
  s_expiration (foldl (fun s f => f s) s (GCInterval <$> gs)) = s_expiration s.
Proof. revert s. induction gs as [|g gs IH]; intros s; [done|]. cbn. by rewrite IH. Qed.

Lemma foldl_Expiration_gcInterval s es :
  gcInterval (foldl (fun s f => f s) s (Expiration <$> es)) = gcInterval s.
Proof. revert s. induction es as [|e es IH]; intros s; [done|]. cbn. by rewrite IH. Qed.

Lemma New_options_init opts :
  Forall is_option opts → items (New opts) = ∅ ∧ mu (New opts) = unlocked.
Proof.
  intros Hopts. induction opts as [|f opts IH] using rev_ind; [done|].
  apply Forall_app in Hopts as [Hopts Hf]. apply Forall_inv in Hf.
  destruct (IH Hopts) as [Hitems Hmu]. rewrite New_snoc.
  unfold is_option, is_Expiration, is_GCInterval in Hf.
  destruct Hf as [[d ->]|[d ->]]; by cbn.
Qed.

Lemma New_gcInterval_last opts d es :
  gcInterval (New (opts ++ GCInterval d :: (Expiration <$> es))) = d.
Proof.
  unfold New. rewrite foldl_app. cbn [foldl].
  by rewrite foldl_Expiration_gcInterval.
Qed.

Lemma New_gcInterval_default es :
  gcInterval (New (Expiration <$> es)) = time.Minute.
Proof. unfold New. by rewrite foldl_Expiration_gcInterval. Qed.

(** X2.  Options apply in order and the two kinds do not interfere: the last
    [Expiration] (respectively [GCInterval]) of the list decides the
    store's expiration (interval), whatever comes before it and however
    many options of the other kind come after; with no [Expiration]
    ([GCInterval]) at all the default of ten minutes (one minute) stands. *)
Theorem New_last_option_wins (opts : list Option) (d : time.Duration)
    (gs es : list time.Duration) :
  s_expiration (New (opts ++ Expiration d :: (GCInterval <$> gs))) = d
  ∧ gcInterval (New (opts ++ GCInterval d :: (Expiration <$> es))) = d
  ∧ s_expiration (New (GCInterval <$> gs)) = 10 * time.Minute
  ∧ gcInterval (New (Expiration <$> es)) = time.Minute.
Proof.
  unfold New. rewrite !foldl_app. cbn [foldl].
  rewrite !foldl_GCInterval_expiration, !foldl_Expiration_gcInterval.
  by cbn.
Qed.

(** ** Sequences of calls *)

Section Runs.

Variable clock : nat → time.Time.
Variable iteration : gmap string item → list string.

Lemma exec_total c w :
  idle w →
  ∃ w', exec clock iteration c w = Returns tt w'
    ∧ idle w'
    ∧ s_expiration (heap w') = s_expiration (heap w)
    ∧ gcInterval (heap w') = gcInterval (heap w)
    ∧ (ticks w ≤ ticks w')%nat
    ∧ (size (items (heap w')) ≤ size (items (heap w)) + count_sets [c])%nat.
Proof.
  intros Hidle. destruct c as [id clear|id a|]; cbn [exec count_sets].
  - destruct (Get_effect clock id clear w Hidle)
      as (r & w' & HG & Hidle' & He & Hg & Ht & Hframe & Hid & _).
    exists w'. unfold mbind, M_bind. rewrite HG.
    repeat split; try done; try lia.
    assert (items (heap w') ⊆ items (heap w)) as Hsub%map_subseteq_size.
    { apply map_subseteq_spec. intros k x Hk.
      destruct (decide (k = id)) as [->|Hne]; [|by rewrite <- Hframe].
      destruct Hid as [<-|[Hnone _]]; [done | congruence]. }
    lia.
  - destruct (Set_effect clock id a w Hidle)
      as (w' & HS & Hidle' & He & Hg & Ht & _ & Hitems).
    exists w'. unfold mbind, M_bind. rewrite HS.
    repeat split; try done; try lia.
    rewrite Hitems. cbn.
    destruct (items (heap w) !! id) as [x|] eqn:Hid.
    + rewrite map_size_insert_Some by done. lia.
    + rewrite map_size_insert_None by done. lia.
  - destruct (deleteExpired_pass clock iteration w Hidle)
      as (w' & HD & Hidle' & He & Hg & Ht & _ & _).
    exists w'. repeat split; try done; try lia.
    pose proof (deleteExpired_subseteq clock iteration w w' Hidle HD)
      as Hsub%map_subseteq_size. lia.
Qed.

Lemma run_total cs w :
  idle w →
  ∃ w', run clock iteration cs w = Returns tt w'
    ∧ idle w'
    ∧ s_expiration (heap w') = s_expiration (heap w)
    ∧ gcInterval (heap w') = gcInterval (heap w).
Proof.
  revert w. induction cs as [|c cs IH]; intros w Hidle.
  - by exists w.
  - destruct (exec_total c w Hidle) as (w1 & Hex & Hidle1 & He1 & Hg1 & _).
    destruct (IH w1 Hidle1) as (w' & Hrun & Hidle' & He & Hg).
    exists w'. cbn. unfold mbind, M_bind. rewrite Hex.
    repeat split; try done; congruence.
Qed.

(** X3.  Whatever calls a client and the sweeper make on an idle store, in
    whatever order, the sequence runs to its end: no call waits for the
    lock, none panics, the mutex is free again afterwards, and neither the
    expiration nor the sweep interval is ever changed. *)
Theorem run_never_stuck cs w :
  idle w →
  ∃ w', run clock iteration cs w = Returns tt w'
    ∧ idle w'
    ∧ s_expiration (heap w') = s_expiration (heap w)
    ∧ gcInterval (heap w') = gcInterval (heap w).
Proof. apply run_total. Qed.

(** X4.  The map only grows through [Set], and by at most one entry per call:
    after any sequence of calls it holds at most as many entries as before
    plus the number of [Set] calls in the sequence.  [Get] and the sweeper
    never add an entry. *)
Theorem run_size_bound cs w :
  idle w →
  ∃ w', run clock iteration cs w = Returns tt w'
    ∧ (size (items (heap w')) ≤ size (items (heap w)) + count_sets cs)%nat.
Proof.
  intros Hidle.
  assert (Hrun : ∃ w', run clock iteration cs w = Returns tt w' ∧ idle w'
            ∧ (size (items (heap w')) ≤ size (items (heap w)) + count_sets cs)%nat).
  { revert w Hidle. induction cs as [|c cs IH]; intros w Hidle.
    - exists w. cbn. repeat split; [done|lia].
    - destruct (exec_total c w Hidle) as (w1 & Hex & Hidle1 & _ & _ & _ & Hsize).
      destruct (IH w1 Hidle1) as (w' & Hrun & Hidle' & Hsize').
      exists w'. cbn [run]. unfold mbind, M_bind. rewrite Hex.
      repeat split; try done.
      assert (count_sets (c :: cs) = (count_sets [c] + count_sets cs)%nat) as ->
        by (by destruct c).
      lia. }
  destruct Hrun as (w' & Hrun & _ & Hsize). by exists w'.
Qed.

End Runs.

(** ** Frames *)

Section Frames.

Variable clock : nat → time.Time.
Variable iteration : gmap string item → list string.

(** X5.  A call about one id never touches the entry of another: after
    [Get(id, clear)], whatever it answers, and after [Set(id, v)], every
    other key is bound exactly as before. *)
Theorem calls_leave_other_ids id k clear v w :
  idle w →
  k ≠ id →
  (∃ r w1, Get clock id clear w = Returns r w1
           ∧ items (heap w1) !! k = items (heap w) !! k)
  ∧ (∃ w1, Set_ clock id v w = Returns None w1
           ∧ items (heap w1) !! k = items (heap w) !! k).
Proof.
  intros Hidle Hk. split.
  - destruct (Get_effect clock id clear w Hidle)
      as (r & w1 & HG & _ & _ & _ & _ & Hframe & _).
    exists r, w1. split; [done | by apply Hframe].
  - destruct (Set_effect clock id v w Hidle)
      as (w1 & HS & _ & _ & _ & _ & Hframe & _).
    exists w1. split; [done | by apply Hframe].
Qed.

(** X6.  A pass of the sweeper, in whatever order and however incompletely
    [range] produces the keys: it returns with the mutex free and the
    configuration unchanged, holds the exclusive lock exactly once and
    between [Lock] and [Unlock] only deletes, never adds or alters an
    entry, and never removes one that is live at its reading of the
    clock. *)
Theorem deleteExpired_any_order w :
  idle w →
  ∃ w1 ds, deleteExpired clock iteration w = Returns tt w1
    ∧ idle w1
    ∧ s_expiration (heap w1) = s_expiration (heap w)
    ∧ gcInterval (heap w1) = gcInterval (heap w)
    ∧ trace w1 = trace w ++ [EvLock] ++ (EvDelete <$> ds) ++ [EvUnlock]
    ∧ items (heap w1) ⊆ items (heap w)
    ∧ ∀ id it, items (heap w) !! id = Some it →
               live (reading clock w) it →
               items (heap w1) !! id = Some it.
Proof.
  intros Hidle.
  destruct (deleteExpired_pass clock iteration w Hidle)
    as (w1 & Hrun & Hidle1 & He & Hg & _ & (ds & Htr & _) & Hlk).
  exists w1, ds. repeat split; try done.
  - by apply (deleteExpired_subseteq clock iteration).
  - intros id it Hid Hlive. by rewrite Hlk, Hid, (gtb_live _ _ Hlive).
Qed.

(** One call keeps a stale entry stale or gone. *)
Lemma exec_stale id it t0 c w :
  (∀ n, (t0 ≤ n)%nat → time.UnixNano (clock n) > expiration it) →
  idle w →
  (t0 ≤ ticks w)%nat →
  items (heap w) !! id = None ∨ items (heap w) !! id = Some it →
  sets id c = false →
  ∃ w', exec clock iteration c w = Returns tt w'
    ∧ idle w'
    ∧ (t0 ≤ ticks w')%nat
    ∧ (items (heap w') !! id = None ∨ items (heap w') !! id = Some it).
Proof.
  intros Hpast Hidle Ht Hid Hc. destruct c as [id' clear|id' a|]; cbn in *.
  - destruct (Get_effect clock id' clear w Hidle)
      as (r & w' & HG & Hidle' & _ & _ & Hticks & Hframe & Hown & _).
    exists w'. unfold mbind, M_bind. rewrite HG.
    repeat split; try done; try lia.
    destruct (decide (id = id')) as [<-|Hne]; [|by rewrite Hframe].
    destruct Hown as [->|[-> _]]; [done | by left].
  - destruct (Set_effect clock id' a w Hidle)
      as (w' & HS & Hidle' & _ & _ & Hticks & Hframe & _).
    exists w'. unfold mbind, M_bind. rewrite HS.
    apply bool_decide_eq_false in Hc.
    repeat split; try done; try lia. rewrite Hframe by congruence. done.
  - destruct (deleteExpired_pass clock iteration w Hidle)
      as (w' & HD & Hidle' & _ & _ & Hticks & _ & Hlk).
    exists w'. repeat split; try done; try lia.
    rewrite Hlk. destruct Hid as [->| ->]; [by left|].
    destruct (_ && _); [by left | by right].
Qed.

Lemma run_stale id it t0 cs w :
  (∀ n, (t0 ≤ n)%nat → time.UnixNano (clock n) > expiration it) →
  idle w →
  (t0 ≤ ticks w)%nat →
  items (heap w) !! id = None ∨ items (heap w) !! id = Some it →
  forallb (fun c => negb (sets id c)) cs = true →
  ∃ w', run clock iteration cs w = Returns tt w'
    ∧ idle w'
    ∧ (t0 ≤ ticks w')%nat
    ∧ (items (heap w') !! id = None ∨ items (heap w') !! id = Some it).
Proof.
  intros Hpast. revert w.
  induction cs as [|c cs IH]; intros w Hidle Ht Hid Hcs.
  - by exists w.
  - cbn in Hcs. apply andb_true_iff in Hcs as [Hc Hcs].
    apply negb_true_iff in Hc.
    destruct (exec_stale id it t0 c w Hpast Hidle Ht Hid Hc)
      as (w1 & Hex & Hidle1 & Ht1 & Hid1).
    destruct (IH w1 Hidle1 Ht1 Hid1 Hcs) as (w' & Hrun & Hrest).
    exists w'. cbn. unfold mbind, M_bind. by rewrite Hex.
Qed.

(** X7.  Once the clock has passed an entry's expiration its answer is never
    handed out again.  With a clock that does not go backwards, after any
    sequence of calls that does not [Set] the id anew (reads and consuming
    reads of any id, writes of other ids, sweeps), [Get(id, clear)] returns
    the empty string with an error, for either flag. *)
Theorem expired_never_served id it cs clear w :
  steady clock →
  idle w →
  items (heap w) !! id = Some it →
  reading clock w > expiration it →
  forallb (fun c => negb (sets id c)) cs = true →
  ∃ w2 e w3, run clock iteration cs w = Returns tt w2
    ∧ Get clock id clear w2 = Returns (EmptyString, Some e) w3.
Proof.
  intros Hsteady Hidle Hid Hstale Hcs.
  assert (Hpast : ∀ n, (ticks w ≤ n)%nat → time.UnixNano (clock n) > expiration it).
  { intros n Hn. specialize (Hsteady _ _ Hn). unfold reading in Hstale. lia. }
  destruct (run_stale id it (ticks w) cs w)
    as (w2 & Hrun & Hidle2 & Ht2 & [Hnone|Hsome]);
    [done | done | lia | by right | done | |].
  - exists w2, ErrIncorrectCaptcha. eexists. split; [done|].
    rewrite Get_eq by done. by rewrite Hnone.
  - exists w2, ErrExpiredCaptcha. eexists. split; [done|].
    apply (Get_stale clock id clear it); [done..|].
    apply Hpast, Ht2.
Qed.

End Frames.

(** ** The sweeper over time *)

Lemma kept_kept a b m : a <= b → kept b (kept a m) = kept b m.
Proof.
  intros Hab. apply map_eq. intros k. apply option_eq. intros it.
  unfold kept. rewrite !map_lookup_filter_Some. unfold live. cbn.
  split; [tauto|]. intros [Hk Hb]. repeat split; try done. lia.
Qed.

Section Sweeper.

Variable clock : nat → time.Time.
Variable iteration : gmap string item → list string.

Lemma gc_loop_passes n w :
  steady clock →
  complete iteration →
  idle w →
  ∃ w', gc_loop clock iteration (S n) w = Returns tt w'
    ∧ idle w'
    ∧ gcInterval (heap w') = gcInterval (heap w)
    ∧ ticks w' = (ticks w + S n)%nat
    ∧ items (heap w') = kept (time.UnixNano (clock (ticks w + n))) (items (heap w)).
Proof.
  intros Hsteady Hcomplete. revert w.
  induction n as [|n IH]; intros w Hidle;
    destruct (deleteExpired_pass clock iteration w Hidle)
      as (w1 & Hrun & Hidle1 & _ & Hg1 & Ht1 & _ & _);
    destruct (deleteExpired_kept clock iteration w Hidle (Hcomplete _))
      as (w1' & Hrun' & Hkept);
    assert (w1' = w1) as -> by congruence.
  - exists w1. cbn. unfold mbind, M_bind. rewrite Hrun. cbn.
    repeat split; try done; [lia|]. by rewrite Nat.add_0_r.
  - destruct (IH w1 Hidle1) as (w' & Hloop & Hidle' & Hg' & Ht' & Hitems').
    exists w'. cbn [gc_loop]. unfold mbind at 1, M_bind at 1. rewrite Hrun.
    repeat split; try done; [congruence | lia |].
    rewrite Hitems', Hkept, Ht1.
    replace (S (ticks w) + n)%nat with (ticks w + S n)%nat by lia.
    apply kept_kept. unfold reading. apply Hsteady. lia.
Qed.

(** X8.  The sweeper goroutine with a positive interval, a clock that does not
    go backwards and a [range] that produces every key: after any positive
    number of firings of its ticker it has read the clock once per firing,
    the mutex is free, and the map holds exactly the entries of the
    original map that are still live at the reading of the last pass.  The
    earlier passes leave no other mark. *)
Theorem gc_keeps_live_at_last_pass n w :
  steady clock →
  complete iteration →
  idle w →
  gcInterval (heap w) > 0 →
  ∃ w', gc clock iteration (S n) w = Returns tt w'
    ∧ idle w'
    ∧ ticks w' = (ticks w + S n)%nat
    ∧ items (heap w') = kept (time.UnixNano (clock (ticks w + n))) (items (heap w)).
Proof.
  intros Hsteady Hcomplete Hidle Hpos.
  destruct (gc_loop_passes n w Hsteady Hcomplete Hidle)
    as (w' & Hloop & Hidle' & _ & Ht & Hitems).
  exists w'. unfold gc, load, time_NewTicker, mbind, M_bind.
  destruct (Z.leb_spec (gcInterval (heap w)) 0) as [Hle|_]; [lia|].
  by rewrite Hloop.
Qed.

(** The loop of the sweeper is a sequence of sweep calls. *)
Lemma gc_loop_run n w :
  gc_loop clock iteration n w = run clock iteration (replicate n CallSweep) w.
Proof.
  revert w. induction n as [|n IH]; intros w; [done|].
  cbn. unfold mbind, M_bind.
  destruct (deleteExpired clock iteration w); [apply IH | done..].
Qed.

(** X9.  A sweep interval that is not positive makes the sweeper goroutine panic
    in [time.NewTicker] before its first pass, however the other options
    are set; with the default interval the same goroutine does not panic.
    [New] itself accepts either configuration. *)
Theorem gc_panics_without_positive_interval opts d es n :
  d <= 0 →
  gc clock iteration n (fresh (New (opts ++ GCInterval d :: (Expiration <$> es))))
  = Panics
  ∧ gc clock iteration n (fresh (New (Expiration <$> es))) ≠ Panics.
Proof.
  intros Hd.
  unfold gc, load, time_NewTicker, mbind, M_bind. cbn [heap fresh].
  rewrite New_gcInterval_last, New_gcInterval_default. split.
  - destruct (Z.leb_spec d 0); [done | lia].
  - cbn.
    assert (Hopts : Forall is_option (Expiration <$> es)).
    { apply Forall_fmap, Forall_forall. intros e _. left. by exists e. }
    assert (Hidle : idle (fresh (New (Expiration <$> es)))).
    { by destruct (New_options_init _ Hopts) as [_ Hmu]. }
    destruct (run_total clock iteration (replicate n CallSweep) _ Hidle)
      as (w' & Hrun & _).
    assert ((time.Minute <=? 0) = false) as -> by reflexivity.
    rewrite gc_loop_run, Hrun. done.
Qed.

(** X10.  An entry written under a negative expiration can never be read.  When
    the sum of the clock and the expiration is an [int64] and the clock has
    not gone backwards by the time of the [Get], [Set(id, v)] followed by
    [Get(id, clear)] reports [ErrExpiredCaptcha] for either flag, and the
    entry, already stale when written, stays in the map. *)
Theorem negative_expiration_unreadable id v clear w :
  idle w →
  s_expiration (heap w) < 0 →
  in_int64 (clock (ticks w)) →
  in_int64 (clock (ticks w) + s_expiration (heap w)) →
  time.UnixNano (clock (ticks w)) <= time.UnixNano (clock (S (ticks w))) →
  ∃ w1 w2, Set_ clock id v w = Returns None w1
    ∧ Get clock id clear w1 = Returns (EmptyString, Some ErrExpiredCaptcha) w2
    ∧ items (heap w2) !! id
      = Some (Item (clock (ticks w) + s_expiration (heap w)) v).
Proof.
  intros Hidle Hneg Hnow Hsum Hfwd.
  destruct (Set_effect clock id v w Hidle)
    as (w1 & HS & Hidle1 & _ & _ & Ht1 & _ & Hitems).
  rewrite UnixNano_Add_exact in Hitems by done.
  assert (Hid : items (heap w1) !! id
                = Some (Item (clock (ticks w) + s_expiration (heap w)) v))
    by (by rewrite Hitems, lookup_insert_eq).
  exists w1. eexists. split; [done|].
  rewrite (Get_stale clock id clear _ w1 Hidle1 Hid).
  - split; [reflexivity|]. by cbn.
  - unfold reading. rewrite Ht1. cbn.
    unfold time.UnixNano in Hfwd at 1. rewrite wrap64_id in Hfwd by done. lia.
Qed.

(** X11.  An answer nobody reads is evicted.  After [Set(id, v)], a pass of the
    sweeper whose reading of the clock is past the expiration just written
    leaves no entry for [id]; a pass whose reading is not past it leaves
    the entry as written. *)
Theorem Set_then_sweep id v w :
  complete iteration →
  idle w →
  ∃ w1 w2 e, Set_ clock id v w = Returns None w1
    ∧ deleteExpired clock iteration w1 = Returns tt w2
    ∧ items (heap w1) !! id = Some (Item e v)
    ∧ (reading clock w1 > e → items (heap w2) !! id = None)
    ∧ (reading clock w1 <= e → items (heap w2) !! id = Some (Item e v)).
Proof.
  intros Hcomplete Hidle.
  destruct (Set_effect clock id v w Hidle)
    as (w1 & HS & Hidle1 & _ & _ & _ & _ & Hitems).
  destruct (deleteExpired_kept clock iteration w1 Hidle1 (Hcomplete _))
    as (w2 & HD & Hkept).
  exists w1, w2. eexists. split; [done|]. split; [done|].
  assert (Hid : items (heap w1) !! id
                = Some (Item (time.UnixNano (time.Add (clock (ticks w))
                                               (s_expiration (heap w)))) v))
    by (by rewrite Hitems, lookup_insert_eq).
  split; [exact Hid|]. rewrite Hkept. unfold kept. split.
  - intros Hpast. apply map_lookup_filter_None. right. intros it Hit. cbn.
    unfold live. assert (it = Item (time.UnixNano (time.Add (clock (ticks w))
                                      (s_expiration (heap w)))) v) as ->
      by congruence. cbn. lia.
  - intros Hlive. apply map_lookup_filter_Some. by split.
Qed.

(** ** Construction, with the goroutine it starts *)

(** X1.  A store built by [New] from the package's own options, in any
    number and order, with a positive sweep interval: it starts with no
    entries and a free mutex, the sweeper goroutine [New] starts does not
    panic, and every [Get], for any id and either flag, straight away or
    after any number of passes of that goroutine, reports
    [ErrIncorrectCaptcha]. *)
Theorem New_starts_empty opts :
  Forall is_option opts →
  gcInterval (New opts) > 0 →
  items (New opts) = ∅
  ∧ mu (New opts) = unlocked
  ∧ ∀ firings id clear,
      ∃ w' w1, New_gc clock iteration opts firings = Returns tt w'
               ∧ Get clock id clear w'
                 = Returns (EmptyString, Some ErrIncorrectCaptcha) w1.
Proof.
  intros Hopts Hpos.
  destruct (New_options_init opts Hopts) as [Hitems Hmu].
  repeat split; try done.
  intros firings id clear.
  destruct (run_absent clock iteration id (replicate firings CallSweep)
              (fresh (New opts))) as (w' & Hrun & Hidle' & Hid').
  { exact Hmu. }
  { cbn. by rewrite Hitems. }
  { by induction firings. }
  exists w'. eexists. split.
  - unfold New_gc, gc, load, time_NewTicker, mbind, M_bind. cbn [heap fresh].
    destruct (Z.leb_spec (gcInterval (New opts)) 0) as [Hle|_]; [lia|].
    by rewrite gc_loop_run.
  - rewrite Get_eq by done. by rewrite Hid'.
Qed.

(** ** The lock each call takes *)

(** X12.  [Set], the consuming [Get] and the sweeper take the exclusive
    lock.  While the mutex is held, by a writer or by readers, or a writer
    is already waiting for it, [Set] and the consuming [Get] wait at
    [Lock] having done nothing: the store, the number of clock readings
    and the journal are as before, except that one more writer is waiting.
    The sweeper waits in the same way, but it has already read the clock,
    once, before asking for the lock. *)
Theorem exclusive_calls_wait id v w :
  mu (heap w) ≠ unlocked →
  (∃ w', Set_ clock id v w = Blocks w'
         ∧ heap w' = set_mu (mu (heap w')) (heap w)
         ∧ ticks w' = ticks w ∧ journal w' = journal w
         ∧ mu (heap w') = Mutex (writer (mu (heap w))) (readers (mu (heap w)))
                                (S (waiting (mu (heap w)))))
  ∧ (∃ w', Get clock id true w = Blocks w'
         ∧ heap w' = set_mu (mu (heap w')) (heap w)
         ∧ ticks w' = ticks w ∧ journal w' = journal w
         ∧ mu (heap w') = Mutex (writer (mu (heap w))) (readers (mu (heap w)))
                                (S (waiting (mu (heap w)))))
  ∧ (∃ w', deleteExpired clock iteration w = Blocks w'
         ∧ heap w' = set_mu (mu (heap w')) (heap w)
         ∧ ticks w' = S (ticks w) ∧ journal w' = journal w ++ [Clock]
         ∧ mu (heap w') = Mutex (writer (mu (heap w))) (readers (mu (heap w)))
                                (S (waiting (mu (heap w))))).
Proof.
  destruct w as [[[wr rd wt] d g its] n tr]. cbn. intros Hheld.
  assert (Hbusy : wr || negb (Nat.eqb rd 0) || negb (Nat.eqb wt 0) = true).
  { destruct wr; [done|]. destruct rd; [|done]. destruct wt; [|done].
    by destruct Hheld. }
  unfold Set_, Get, getAndDel, deleteExpired, defer, mbind, M_bind, mu_Lock,
    time_Now, queued. cbn. rewrite Hbusy.
  repeat split; by eexists.
Qed.

(** X13.  The non-consuming [Get] takes only the shared lock.  When no
    writer holds the mutex or waits for it, the call returns even while
    other readers hold it, gives their count back as it found it and leaves
    the whole store as it was, its only events being [RLock] and
    [RUnlock].  When a writer holds the mutex or is waiting for it, the
    call waits, having done nothing; in particular a [Set] that waits
    behind readers makes every later non-consuming [Get] wait too. *)
Theorem Get_peek_shares_lock id w :
  (writer (mu (heap w)) = false →
   waiting (mu (heap w)) = 0%nat →
   ∃ r w1, Get clock id false w = Returns r w1
     ∧ heap w1 = heap w
     ∧ trace w1 = trace w ++ [EvRLock; EvRUnlock])
  ∧ (writer (mu (heap w)) = true ∨ waiting (mu (heap w)) ≠ 0%nat →
     Get clock id false w = Blocks w)
  ∧ ∀ id' v w', Set_ clock id' v w = Blocks w' →
                Get clock id false w' = Blocks w'.
Proof.
  destruct w as [[[wr rd wt] d g its] n tr]. cbn. repeat split.
  - intros -> ->.
    unfold Get, defer, mbind, M_bind, mu_RLock. cbn. rewrite get_eq. cbn.
    destruct (its !! id) as [it|]; cbn;
      [unfold reading; cbn; destruct (_ >? _); cbn|];
      unfold emit, set_mu; cbn; eexists _, _;
      (split; [reflexivity|]); split; traces.
  - intros Hbusy. unfold Get, defer, mbind, M_bind, mu_RLock. cbn.
    destruct wr; [done|]. destruct wt; [by destruct Hbusy|done].
  - intros id' v w'. unfold Set_, defer, mbind at 1, M_bind at 1, mu_Lock.
    cbn. destruct (_ || _) eqn:Hbusy; [|done].
    intros [= <-]. unfold Get, defer, mbind, M_bind, mu_RLock, queued. cbn.
    by destruct wr.
Qed.

End Sweeper.

(** ** The further properties at concrete stores *)

Lemma clock_capped_steady : steady clock_capped.
Proof.
  intros n m Hnm. unfold time.UnixNano, clock_capped.
  rewrite !wrap64_id; unfold in_int64, int64_min, int64_max; lia.
Qed.

Lemma keys_complete : complete keys.
Proof. intros m. reflexivity. Qed.

Lemma New_starts_empty_witness :
  ∃ w' w1,
    New_gc clock_us keys
      [Expiration time.Millisecond; GCInterval time.Second;
       Expiration time.Minute] 3 = Returns tt w'
    ∧ Get clock_us "x1" true w'
      = Returns (EmptyString, Some ErrIncorrectCaptcha) w1.
Proof.
  destruct (New_starts_empty clock_us keys
              [Expiration time.Millisecond; GCInterval time.Second;
               Expiration time.Minute]) as (_ & _ & HG).
  - apply Forall_cons_2; [left; by eexists|].
    apply Forall_cons_2; [right; by eexists|].
    apply Forall_cons_2; [left; by eexists|].
    apply Forall_nil_2.
  - vm_compute. reflexivity.
  - apply (HG 3%nat "x1" true).
Defined.

Lemma run_never_stuck_witness :
  ∃ w', run clock_us keys
          [CallSet "a" "1"; CallGet "a" true; CallGet "a" true; CallSweep;
           CallGet "b" false; CallSet "b" "2"; CallSweep]
          (fresh (New [])) = Returns tt w'
        ∧ idle w'
        ∧ s_expiration (heap w') = 10 * time.Minute
        ∧ gcInterval (heap w') = time.Minute.
Proof.
  apply (run_never_stuck clock_us keys _ (fresh (New []))). reflexivity.
Defined.

Lemma run_size_bound_witness :
  ∃ w', run clock_us keys
          [CallSet "a" "1"; CallSet "a" "2"; CallGet "a" true; CallSet "b" "3"]
          (holding "c" 1700000000000000000 "0") = Returns tt w'
        ∧ (size (items (heap w')) ≤ 1 + 3)%nat.
Proof.
  apply (run_size_bound clock_us keys
           [CallSet "a" "1"; CallSet "a" "2"; CallGet "a" true; CallSet "b" "3"]
           (holding "c" 1700000000000000000 "0")).
  reflexivity.
Defined.

Lemma calls_leave_other_ids_witness :
  (∃ r w1, Get clock_us "gone" true (holding "kept" 1700000000000000000 "7")
           = Returns r w1
           ∧ items (heap w1) !! "kept" = Some (Item 1700000000000000000 "7"))
  ∧ (∃ w1, Set_ clock_us "gone" "8" (holding "kept" 1700000000000000000 "7")
           = Returns None w1
           ∧ items (heap w1) !! "kept" = Some (Item 1700000000000000000 "7")).
Proof.
  apply (calls_leave_other_ids clock_us "gone" "kept" true "8"
           (holding "kept" 1700000000000000000 "7")).
  - reflexivity.
  - discriminate.
Defined.

Lemma deleteExpired_any_order_witness :
  ∃ w1 ds, deleteExpired clock_us (fun m => take 1 (keys m))
             (stocked (<["old" := Item 1500000000000000000 "1"]>
                         {["new" := Item 1700000000000000000 "2"]}))
           = Returns tt w1
    ∧ trace w1 = [EvLock] ++ (EvDelete <$> ds) ++ [EvUnlock]
    ∧ items (heap w1) !! "new" = Some (Item 1700000000000000000 "2").
Proof.
  destruct (deleteExpired_any_order clock_us (fun m => take 1 (keys m))
              (stocked (<["old" := Item 1500000000000000000 "1"]>
                          {["new" := Item 1700000000000000000 "2"]})))
    as (w1 & ds & HD & _ & _ & _ & Htr & _ & Hlive); [reflexivity|].
  exists w1, ds. split; [exact HD|]. split; [exact Htr|].
  apply Hlive; [reflexivity | unfold live; vm_compute; discriminate].
Defined.

Lemma expired_never_served_witness :
  ∃ w2 e w3,
    run clock_capped keys
        [CallGet "x" true; CallGet "x" false; CallSet "y" "2"; CallSweep;
         CallGet "x" true]
        (holding "x" 1500000000000000000 "1") = Returns tt w2
    ∧ Get clock_capped "x" true w2 = Returns (EmptyString, Some e) w3.
Proof.
  apply (expired_never_served clock_capped keys "x"
           (Item 1500000000000000000 "1")).
  - exact clock_capped_steady.
  - reflexivity.
  - reflexivity.
  - vm_compute. reflexivity.
  - reflexivity.
Defined.

Lemma gc_keeps_live_at_last_pass_witness :
  ∃ w', gc clock_capped keys 3
          (stocked (<["old" := Item 1600000000000001500 "1"]>
                      {["new" := Item 1700000000000000000 "2"]}))
        = Returns tt w'
    ∧ ticks w' = 3%nat
    ∧ items (heap w') !! "old" = None
    ∧ items (heap w') !! "new" = Some (Item 1700000000000000000 "2").
Proof.
  destruct (gc_keeps_live_at_last_pass clock_capped keys 2
              (stocked (<["old" := Item 1600000000000001500 "1"]>
                          {["new" := Item 1700000000000000000 "2"]})))
    as (w' & Hgc & _ & Ht & Hitems).
  - exact clock_capped_steady.
  - exact keys_complete.
  - reflexivity.
  - vm_compute. reflexivity.
  - exists w'. split; [exact Hgc|]. split; [exact Ht|].
    rewrite Hitems. split; vm_compute; reflexivity.
Defined.

Lemma gc_panics_without_positive_interval_witness :
  gc clock_us keys 5
     (fresh (New ([Expiration time.Second] ++ GCInterval 0
                    :: (Expiration <$> [time.Minute]))))
  = Panics
  ∧ gc clock_us keys 5 (fresh (New (Expiration <$> [time.Minute]))) ≠ Panics.
Proof.
  apply (gc_panics_without_positive_interval clock_us keys
           [Expiration time.Second] 0 [time.Minute] 5).
  vm_compute. discriminate.
Defined.

Lemma negative_expiration_unreadable_witness :
  ∃ w1 w2, Set_ clock_us "x" "1" (fresh (New [Expiration (-1)]))
           = Returns None w1
    ∧ Get clock_us "x" false w1 = Returns (EmptyString, Some ErrExpiredCaptcha) w2
    ∧ items (heap w2) !! "x" = Some (Item 1599999999999999999 "1").
Proof.
  apply (negative_expiration_unreadable clock_us "x" "1" false
           (fresh (New [Expiration (-1)]))).
  - reflexivity.
  - reflexivity.
  - vm_compute. split; discriminate.
  - vm_compute. split; discriminate.
  - vm_compute. discriminate.
Defined.

Lemma Set_then_sweep_witness :
  ∃ w1 w2, Set_ clock_5ms "x" "1" (fresh (New [Expiration time.Millisecond]))
           = Returns None w1
    ∧ deleteExpired clock_5ms keys w1 = Returns tt w2
    ∧ items (heap w2) !! "x" = None.
Proof.
  destruct (Set_then_sweep clock_5ms keys "x" "1"
              (fresh (New [Expiration time.Millisecond])))
    as (w1 & w2 & e & HS & HD & He & Hevict & _);
    [exact keys_complete | reflexivity |].
  exists w1, w2. split; [exact HS|]. split; [exact HD|].
  apply Hevict.
  pose proof HS as HS'. vm_compute in HS'. injection HS' as <-.
  vm_compute in He. injection He as <-. vm_compute. reflexivity.
Defined.

Lemma exclusive_calls_wait_witness :
  Set_ clock_us "x" "1"
       (World (Store (Mutex false 2 0) time.Minute time.Minute ∅) 0 [])
  = Blocks (World (Store (Mutex false 2 1) time.Minute time.Minute ∅) 0 [])
  ∧ Get clock_us "x" true
        (World (Store (Mutex false 2 0) time.Minute time.Minute ∅) 0 [])
    = Blocks (World (Store (Mutex false 2 1) time.Minute time.Minute ∅) 0 [])
  ∧ deleteExpired clock_us keys
        (World (Store (Mutex false 2 0) time.Minute time.Minute ∅) 0 [])
    = Blocks (World (Store (Mutex false 2 1) time.Minute time.Minute ∅) 1
                    [Clock]).
Proof.
  destruct (exclusive_calls_wait clock_us keys "x" "1"
              (World (Store (Mutex false 2 0) time.Minute time.Minute ∅) 0 []))
    as ((w1 & HS & _) & (w2 & HG & _) & (w3 & HD & _)); [discriminate|].
  pose proof HS as HS'. vm_compute in HS'. injection HS' as <-.
  pose proof HG as HG'. vm_compute in HG'. injection HG' as <-.
  pose proof HD as HD'. vm_compute in HD'. injection HD' as <-.
  split; [exact HS|]. split; [exact HG | exact HD].
Defined.

Lemma Get_peek_shares_lock_witness :
  (∃ r w1,
     Get clock_us "x" false
         (World (Store (Mutex false 2 0) time.Minute time.Minute
                       {["x" := Item 1700000000000000000 "1"]}) 0 [])
     = Returns r w1
     ∧ heap w1 = Store (Mutex false 2 0) time.Minute time.Minute
                       {["x" := Item 1700000000000000000 "1"]}
     ∧ trace w1 = [EvRLock; EvRUnlock])
  ∧ Get clock_us "x" false
        (World (Store (Mutex false 2 1) time.Minute time.Minute
                      {["x" := Item 1700000000000000000 "1"]}) 0 [])
    = Blocks (World (Store (Mutex false 2 1) time.Minute time.Minute
                           {["x" := Item 1700000000000000000 "1"]}) 0 []).
Proof.
  split.
  - apply (Get_peek_shares_lock clock_us "x"
             (World (Store (Mutex false 2 0) time.Minute time.Minute
                           {["x" := Item 1700000000000000000 "1"]}) 0 []));
      reflexivity.
  - apply (Get_peek_shares_lock clock_us "x"
             (World (Store (Mutex false 2 1) time.Minute time.Minute
                           {["x" := Item 1700000000000000000 "1"]}) 0 [])).
    right. discriminate.
Defined.
